(** * The per-connection handler of the raw TCP echo server (server.c)

    The block of [main] that serves one accepted connection is embedded as
    a program in a small I/O monad.  The peer and the kernel are scripts:
    the list of results the successive [recv] calls return and the list of
    answers the successive [send] calls get.  The locals of the block are
    [buf], [total] and [too_long], as in the source. *)

From Stdlib Require Import ZArith Lia Strings.Byte String.
From stdpp Require Import base list list_numbers.

Open Scope Z_scope.

(** ** Constants *)

Definition MAX_MSG_LEN : Z := 20.

(** Values of <errno.h> on Linux; the handler only compares against them. *)
Definition EINTR : Z := 4.
Definition EPIPE : Z := 32.
Definition ENOMEM : Z := 12.

Definition NUL : byte := x00.
Definition LF : byte := x0a.
Definition CR : byte := x0d.

(** The literal "ERR too long\n" as it lies in memory, NUL included. *)
Definition err_literal : list byte :=
  list_byte_of_string "ERR too long" ++ [LF; NUL].

(** The literal "\n". *)
Definition newline_literal : list byte := [LF; NUL].

(** ** Results of running a piece of code *)

Inductive result (A : Type) : Type :=
| Ok (a : A)        (* the code ran to its end *)
| Blocked           (* a system call never returns: the peer stays silent *)
| Undefined.        (* an access outside an object *)

Arguments Ok {A} a.
Arguments Blocked {A}.
Arguments Undefined {A}.

(** ** Memory objects *)

(** A char array, with the history of the indices written to it. *)
Record array : Type := mkArray {
  cells : list byte;
  writes : list Z
}.

(** An automatic array of [n] chars holds indeterminate values. *)
Definition fresh_array (n : Z) (indet : nat -> byte) : array :=
  mkArray (map indet (seq 0 (Z.to_nat n))) [].

(** [a[i] = v] *)
Definition store (a : array) (i : Z) (v : byte) : option array :=
  if bool_decide (0 <= i < Z.of_nat (length (cells a)))
  then Some (mkArray (<[Z.to_nat i := v]> (cells a)) (writes a ++ [i]))
  else None.

(** The [n] chars at the start of [a], as [send(cfd, a, n, 0)] reads them. *)
Definition load_prefix (a : list byte) (n : Z) : option (list byte) :=
  if bool_decide (0 <= n <= Z.of_nat (length a))
  then Some (take (Z.to_nat n) a)
  else None.

(** The C string at the start of [a]: the chars before the first NUL. *)
Fixpoint cstring (a : list byte) : option (list byte) :=
  match a with
  | [] => None
  | c :: a' =>
      if Byte.eqb c NUL then Some []
      else match cstring a' with
           | Some s => Some (c :: s)
           | None => None
           end
  end.

Definition strlen (a : list byte) : option Z :=
  match cstring a with
  | Some s => Some (Z.of_nat (length s))
  | None => None
  end.

(** ** The connection and the process around it *)

(** What one [recv(cfd, &ch, 1, 0)] returns. *)
Inductive recv_event : Type :=
| RecvByte (ch : byte)     (* n = 1, ch holds the byte *)
| RecvEof                  (* n = 0 *)
| RecvErr (errno : Z).     (* n = -1 *)

(** How the kernel answers one [send]. *)
Inductive send_event : Type :=
| SendAccepts (k : nat)    (* takes up to k bytes and returns their number *)
| SendErr (errno : Z).     (* returns -1 *)

(** Lines printed by [perror] and [printf]. *)
Inductive log_line : Type :=
| Perror (msg : string)
| LogOverlong
| LogEchoed (s : list byte) (n : Z)
| LogNoData.

Record world : Type := mkWorld {
  rx : list recv_event;    (* results of the recv calls to come *)
  tx : list send_event;    (* answers to the send calls to come *)
  wire : list byte;        (* bytes handed to the kernel for the peer *)
  stdio : list log_line;   (* diagnostics printed so far *)
  closed : bool            (* close(cfd) has run *)
}.

Definition set_rx (l : list recv_event) (w : world) : world :=
  mkWorld l (tx w) (wire w) (stdio w) (closed w).
Definition set_tx (l : list send_event) (w : world) : world :=
  mkWorld (rx w) l (wire w) (stdio w) (closed w).
Definition put_wire (bs : list byte) (w : world) : world :=
  mkWorld (rx w) (tx w) (wire w ++ bs) (stdio w) (closed w).
Definition put_log (ln : log_line) (w : world) : world :=
  mkWorld (rx w) (tx w) (wire w) (stdio w ++ [ln]) (closed w).
Definition set_closed (w : world) : world :=
  mkWorld (rx w) (tx w) (wire w) (stdio w) true.

(** A freshly accepted connection. *)
Definition connect (script : list recv_event) (answers : list send_event) : world :=
  mkWorld script answers [] [] false.

(** ** The I/O monad *)

Definition io (A : Type) : Type := world -> result (A * world).

Definition ret {A} (a : A) : io A := fun w => Ok (a, w).

Definition bind {A B} (m : io A) (k : A -> io B) : io B := fun w =>
  match m w with
  | Ok (a, w') => k a w'
  | Blocked => Blocked
  | Undefined => Undefined
  end.

Declare Scope io_scope.
Delimit Scope io_scope with io.
Notation "x <- m ;; k" := (bind m (fun x => k))
  (at level 100, m at next level, right associativity) : io_scope.
Notation "m ;;; k" := (bind m (fun _ => k))
  (at level 100, right associativity) : io_scope.

(** An access that must stay inside its object. *)
Definition checked {A} (o : option A) : io A := fun w =>
  match o with
  | Some a => Ok (a, w)
  | None => Undefined
  end.

Definition send (payload : list byte) : io send_event := fun w =>
  match tx w with
  | [] => Blocked
  | SendAccepts k :: answers =>
      Ok (SendAccepts k, put_wire (take k payload) (set_tx answers w))
  | SendErr e :: answers => Ok (SendErr e, set_tx answers w)
  end.

Definition perror (msg : string) : io unit := fun w =>
  Ok (tt, put_log (Perror msg) w).

Definition printf (ln : log_line) : io unit := fun w => Ok (tt, put_log ln w).

Definition close : io unit := fun w => Ok (tt, set_closed w).

(** [wn < 0 && errno != code] for the answer of a [send]: errno is read
    only when the call failed. *)
Definition failed_other_than (code : Z) (r : send_event) : bool :=
  match r with
  | SendAccepts _ => false
  | SendErr e => negb (e =? code)
  end.

(** ** The handler *)

Record locals : Type := mkLocals {
  buf : array;
  total : Z;
  too_long : Z
}.

Inductive ctl : Type :=
| Continue (st : locals)
| Break (st : locals).

Definition is_terminator (ch : byte) : bool :=
  Byte.eqb ch LF || Byte.eqb ch CR.

(** One turn of the inner [for (;;)], after [recv] returned [r]. *)
Definition loop_body (r : recv_event) (st : locals) : io ctl :=
  match r with
  | RecvEof => ret (Break st)
  | RecvErr e =>
      if e =? EINTR then ret (Continue st)
      else (perror "recv" ;;; ret (Break st))%io
  | RecvByte ch =>
      if is_terminator ch then ret (Break st)
      else if total st <? MAX_MSG_LEN then
        (b <- checked (store (buf st) (total st) ch) ;;
         ret (Continue (mkLocals b (total st + 1) (too_long st))))%io
      else ret (Continue (mkLocals (buf st) (total st) 1))
  end.

(** The inner loop.  Every turn starts with a [recv], which takes the next
    result of the script; when none is left the call never returns. *)
Fixpoint read_loop (script : list recv_event) (st : locals) : io locals := fun w =>
  match script with
  | [] => Blocked
  | r :: script' =>
      match loop_body r st (set_rx script' w) with
      | Ok (Continue st', w') => read_loop script' st' w'
      | Ok (Break st', w') => Ok (st', w')
      | Blocked => Blocked
      | Undefined => Undefined
      end
  end.

Definition reading (st : locals) : io locals := fun w => read_loop (rx w) st w.

Definition fresh_locals (indet : nat -> byte) : locals :=
  mkLocals (fresh_array (MAX_MSG_LEN + 1) indet) 0 0.

(** Declarations, the loop and [buf[total] = '\0']. *)
Definition read_message (indet : nat -> byte) : io locals :=
  (st <- reading (fresh_locals indet) ;;
   b <- checked (store (buf st) (total st) NUL) ;;
   ret (mkLocals b (total st) (too_long st)))%io.

(** The response path. *)
Definition respond (st : locals) : io unit :=
  if negb (too_long st =? 0) then
    (n <- checked (strlen err_literal) ;;
     err <- checked (load_prefix err_literal n) ;;
     r <- send err ;;
     (if failed_other_than EPIPE r
      then perror "send error message"
      else ret tt) ;;;
     printf LogOverlong)%io
  else if total st >? 0 then
    (payload <- checked (load_prefix (cells (buf st)) (total st)) ;;
     r <- send payload ;;
     (if failed_other_than EPIPE r
      then perror "send echo"
      else (nl <- checked (load_prefix newline_literal 1) ;;
            send nl ;;; ret tt)) ;;;
     s <- checked (cstring (cells (buf st))) ;;
     printf (LogEchoed s (total st)))%io
  else printf LogNoData.

(** Everything done for one accepted connection. *)
Definition handle_connection (indet : nat -> byte) : io locals :=
  (st <- read_message indet ;;
   respond st ;;;
   close ;;;
   ret st)%io.

(** The bytes a run of the handler hands to the kernel for the peer. *)
Definition response (indet : nat -> byte) (w : world) : result (list byte) :=
  match handle_connection indet w with
  | Ok (_, w') => Ok (wire w')
  | Blocked => Blocked
  | Undefined => Undefined
  end.

(** The locals at every head of the inner loop, and at its exit. *)
Fixpoint loop_states (script : list recv_event) (st : locals) (w : world)
  : list locals :=
  st :: match script with
        | [] => []
        | r :: script' =>
            match loop_body r st (set_rx script' w) with
            | Ok (Continue st', w') => loop_states script' st' w'
            | Ok (Break st', _) => [st']
            | Blocked | Undefined => []
            end
        end.

(** ** Input streams *)

(** Results of [recv] after which the loop goes on: a content byte, or an
    interruption by a signal. *)
Definition keeps_reading (r : recv_event) : Prop :=
  match r with
  | RecvByte ch => is_terminator ch = false
  | RecvEof => False
  | RecvErr e => e = EINTR
  end.

(** Results of [recv] after which the loop is left. *)
Definition stops_reading (r : recv_event) : Prop :=
  match r with
  | RecvByte ch => is_terminator ch = true
  | RecvEof => True
  | RecvErr e => e <> EINTR
  end.

(** The bytes delivered by a stretch of the script. *)
Definition content (script : list recv_event) : list byte :=
  omap (fun r => match r with RecvByte ch => Some ch | _ => None end) script.

(** The script of a peer that sends the bytes [C] one after the other. *)
Definition sends (C : list byte) : list recv_event := map RecvByte C.

Definition no_terminator (C : list byte) : Prop :=
  Forall (fun ch => ch <> LF /\ ch <> CR) C.

(** The thirteen bytes of the error message. *)
Definition err_message : list byte := list_byte_of_string "ERR too long" ++ [LF].

(** ** What the locals hold after the content bytes [seen] *)

Record accumulated (seen : list byte) (st : locals) : Prop := {
  acc_total : total st = Z.of_nat (min (length seen) 20);
  acc_cells : take (min (length seen) 20) (cells (buf st)) = take 20 seen;
  acc_size : length (cells (buf st)) = 21%nat;
  acc_flag : too_long st = if bool_decide (20 < length seen)%nat then 1 else 0;
  acc_writes : writes (buf st) = seqZ 0 (total st)
}.

(** What [perror] prints when the loop is left. *)
Definition recv_diag (r : recv_event) : list log_line :=
  match r with
  | RecvErr _ => [Perror "recv"]
  | _ => []
  end.

(** The locals after [buf[total] = '\0']. *)
Definition terminated (st : locals) : locals :=
  mkLocals (mkArray (<[Z.to_nat (total st) := NUL]> (cells (buf st)))
                    (writes (buf st) ++ [total st]))
           (total st) (too_long st).

(** The bound on the locals: the count is within [0, MAX_MSG_LEN], the
    stores made so far went to the indices below the count, one each, and
    [buf] has its declared size. *)
Definition bounded (st : locals) : Prop :=
  0 <= total st <= MAX_MSG_LEN
  /\ writes (buf st) = seqZ 0 (total st)
  /\ length (cells (buf st)) = Z.to_nat (MAX_MSG_LEN + 1).

(** A piece of code that leaves the incoming stream where it is. *)
Definition keeps_rx {A} (m : io A) : Prop :=
  forall w a w', m w = Ok (a, w') -> rx w' = rx w.

(** ** What a run shows from outside *)

(** Two worlds in which the connection is in the same state: the same
    answers left, the same bytes on the wire, open or closed alike.  The
    incoming stream and the diagnostics may differ. *)
Definition same_conn (w1 w2 : world) : Prop :=
  tx w1 = tx w2 /\ wire w1 = wire w2 /\ closed w1 = closed w2.

Definition alike {A} (r1 r2 : result (A * world)) : Prop :=
  match r1, r2 with
  | Ok (a1, w1), Ok (a2, w2) => a1 = a2 /\ same_conn w1 w2
  | Blocked, Blocked => True
  | Undefined, Undefined => True
  | _, _ => False
  end.

(** Code that looks neither at the incoming stream nor at the diagnostics. *)
Definition oblivious {A} (m : io A) : Prop :=
  forall w1 w2, same_conn w1 w2 -> alike (m w1) (m w2).

(** A run without the cells of [buf]: count, flag and world. *)
Definition observe (r : result (locals * world)) : result (Z * Z * world) :=
  match r with
  | Ok (st, w) => Ok (total st, too_long st, w)
  | Blocked => Blocked
  | Undefined => Undefined
  end.

(** Locals that agree on everything but the cells at and above the count. *)
Definition same_view (st1 st2 : locals) : Prop :=
  total st1 = total st2
  /\ too_long st1 = too_long st2
  /\ writes (buf st1) = writes (buf st2)
  /\ take (Z.to_nat (total st1)) (cells (buf st1))
     = take (Z.to_nat (total st2)) (cells (buf st2)).

(** The number of [send] calls made between two worlds. *)
Definition sends_made (w w' : world) : Z :=
  Z.of_nat (length (tx w)) - Z.of_nat (length (tx w')).

(** ** The accept loop *)

(** A client, as the server meets it: the address [accept] reports and
    what the connection will deliver and take. *)
Record peer : Type := mkPeer {
  peer_addr : Z;
  peer_port : Z;
  peer_script : list recv_event;
  peer_answers : list send_event
}.

(** What one [accept] returns: a connected socket, or -1 with errno. *)
Inductive accept_event : Type :=
| AcceptConn (p : peer)
| AcceptErr (errno : Z).

Inductive server_line : Type :=
| SrvPerror (msg : string)
| SrvConnected (addr port : Z)
| SrvHandler (ln : log_line).

(** Where the server waits when the script of the outside is used up. *)
Inductive waiting : Type :=
| InAccept       (* in accept: no client is left *)
| InHandler      (* in recv or send of the connection being served *)
| Faulted.       (* an access outside an object *)

(** What the outer [for (;;)] has done: the connections it closed, oldest
    first, as their handler left them, the lines it printed, and where it
    waits.  A connection whose handler never returns leaves no record. *)
Record service : Type := mkService {
  served : list world;
  console : list server_line;
  waits : waiting
}.

(** The outer [for (;;)].  [indet n] gives the indeterminate contents of
    [buf] at the n-th connection. *)
Fixpoint accept_loop (indet : nat -> nat -> byte) (n : nat)
    (evs : list accept_event) : service :=
  match evs with
  | [] => mkService [] [] InAccept
  | AcceptErr e :: evs' =>
      let s := accept_loop indet n evs' in
      if e =? EINTR then s
      else mkService (served s) (SrvPerror "accept" :: console s) (waits s)
  | AcceptConn p :: evs' =>
      let hello := SrvConnected (peer_addr p) (peer_port p) in
      match handle_connection (indet n)
                              (connect (peer_script p) (peer_answers p)) with
      | Ok (_, w') =>
          let s := accept_loop indet (S n) evs' in
          mkService (w' :: served s)
                    (hello :: map SrvHandler (stdio w') ++ console s)
                    (waits s)
      | Blocked => mkService [] [hello] InHandler
      | Undefined => mkService [] [hello] Faulted
      end
  end.

Definition is_conn (ev : accept_event) : bool :=
  match ev with
  | AcceptConn _ => true
  | AcceptErr _ => false
  end.

(** An accept that failed with EINTR. *)
Definition is_interrupted (ev : accept_event) : bool :=
  match ev with
  | AcceptConn _ => false
  | AcceptErr e => e =? EINTR
  end.

(** ** Start-up *)

Definition EXIT_FAILURE : Z := 1.

(** The return values of the calls that set the listening socket up. *)
Record setup : Type := mkSetup {
  socket_ret : Z;
  setsockopt_ret : Z;
  inet_pton_ret : Z;
  bind_ret : Z;
  listen_ret : Z
}.

Inductive main_line : Type :=
| MainPerror (msg : string)
| MainListening (ip : string) (port : Z) (max : Z).

Inductive main_outcome : Type :=
| Exits (status : Z) (out : list main_line)
| Listens (ip : string) (sin_port : Z) (out : list main_line) (s : service).

(** [die]: perror, then exit(EXIT_FAILURE). *)
Definition die (msg : string) : main_outcome :=
  Exits EXIT_FAILURE [MainPerror msg].

(** [(uint16_t)port], the value [htons] puts into [sin_port]. *)
Definition to_uint16 (port : Z) : Z := port mod 65536.

(** [main].  [atoi] is the function of the C library; [argv] holds the
    [argc] arguments, the name of the program first.  The call
    signal(SIGPIPE, SIG_IGN) is what lets a send to a peer that is gone
    return -1 with EPIPE, as [send] has it. *)
Definition main (atoi : string -> Z) (indet : nat -> nat -> byte)
    (argv : list string) (env : setup) (evs : list accept_event)
  : main_outcome :=
  let argc := Z.of_nat (length argv) in
  let bind_ip := if argc >=? 2 then nth 1 argv "0.0.0.0"%string
                 else "0.0.0.0"%string in
  let port := if argc >=? 3 then atoi (nth 2 argv ""%string) else 9000 in
  if socket_ret env <? 0 then die "socket"
  else if setsockopt_ret env <? 0 then die "setsockopt"
  else if negb (inet_pton_ret env =? 1) then die "inet_pton"
  else if bind_ret env <? 0 then die "bind"
  else if listen_ret env <? 0 then die "listen"
  else Listens bind_ip (to_uint16 port)
               [MainListening bind_ip port MAX_MSG_LEN]
               (accept_loop indet 0 evs).

Definition setup_ok (env : setup) : Prop :=
  0 <= socket_ret env /\ 0 <= setsockopt_ret env /\ inet_pton_ret env = 1
  /\ 0 <= bind_ret env /\ 0 <= listen_ret env.

(** ** Lemmas on the memory objects *)

Lemma is_terminator_true ch : is_terminator ch = true <-> ch = LF \/ ch = CR.
Proof.
  unfold is_terminator. rewrite orb_true_iff. split.
  - intros [H | H]; apply Byte.byte_dec_bl in H; auto.
  - intros [-> | ->]; [left | right]; reflexivity.
Qed.

Lemma is_terminator_false ch : is_terminator ch = false <-> ch <> LF /\ ch <> CR.
Proof.
  rewrite <- not_true_iff_false, is_terminator_true. tauto.
Qed.

Lemma store_in_bounds a i v :
  0 <= i < Z.of_nat (length (cells a)) ->
  store a i v = Some (mkArray (<[Z.to_nat i := v]> (cells a)) (writes a ++ [i])).
Proof. intros H. unfold store. rewrite bool_decide_eq_true_2; auto. Qed.

Lemma load_prefix_in_bounds a n :
  0 <= n <= Z.of_nat (length a) -> load_prefix a n = Some (take (Z.to_nat n) a).
Proof. intros H. unfold load_prefix. rewrite bool_decide_eq_true_2; auto. Qed.

Lemma cstring_with_NUL (a : list byte) : NUL ∈ a -> is_Some (cstring a).
Proof.
  induction a as [| c a IH]; intros H.
  - inversion H.
  - simpl. destruct (Byte.eqb c NUL) eqn:E; [eauto |].
    apply elem_of_cons in H as [H | H].
    + subst c. discriminate E.
    + destruct (IH H) as [s ->]. eauto.
Qed.

Lemma cstring_after_store (a : list byte) (i : nat) :
  (i < length a)%nat -> is_Some (cstring (<[i := NUL]> a)).
Proof.
  intros H. apply cstring_with_NUL. apply list_elem_of_lookup.
  exists i. apply list_lookup_insert_eq. exact H.
Qed.

Lemma content_sends C : content (sends C) = C.
Proof.
  induction C as [| c C IH]; [reflexivity |].
  change (c :: content (sends C) = c :: C). f_equal. exact IH.
Qed.

Lemma content_app s1 s2 : content (s1 ++ s2) = content s1 ++ content s2.
Proof. unfold content. apply omap_app. Qed.

Lemma sends_keep_reading C : no_terminator C -> Forall keeps_reading (sends C).
Proof.
  unfold no_terminator, sends. intros H. apply Forall_fmap.
  eapply Forall_impl; [exact H |]. intros ch Hch. simpl.
  apply is_terminator_false. exact Hch.
Qed.

(** ** Lemmas on the inner loop *)

Lemma accumulated_fresh indet : accumulated [] (fresh_locals indet).
Proof.
  split; reflexivity.
Qed.

Lemma read_loop_set_rx l script st w :
  read_loop script st (set_rx l w) = read_loop script st w.
Proof. destruct script; reflexivity. Qed.

Lemma body_interrupted st w : loop_body (RecvErr EINTR) st w = Ok (Continue st, w).
Proof. reflexivity. Qed.

(** A content byte below the bound is stored and counted. *)
Lemma body_stores st ch w :
  is_terminator ch = false -> 0 <= total st < MAX_MSG_LEN ->
  length (cells (buf st)) = 21%nat ->
  loop_body (RecvByte ch) st w =
    Ok (Continue (mkLocals
                    (mkArray (<[Z.to_nat (total st) := ch]> (cells (buf st)))
                             (writes (buf st) ++ [total st]))
                    (total st + 1) (too_long st)), w).
Proof.
  intros Hch Ht Hlen. unfold loop_body. rewrite Hch.
  destruct (Z.ltb_spec (total st) MAX_MSG_LEN) as [_ | Hge]; [| lia].
  unfold bind. rewrite store_in_bounds by (unfold MAX_MSG_LEN in Ht; lia).
  reflexivity.
Qed.

(** A content byte at the bound only raises the flag. *)
Lemma body_discards st ch w :
  is_terminator ch = false -> MAX_MSG_LEN <= total st ->
  loop_body (RecvByte ch) st w =
    Ok (Continue (mkLocals (buf st) (total st) 1), w).
Proof.
  intros Hch Ht. unfold loop_body. rewrite Hch.
  destruct (Z.ltb_spec (total st) MAX_MSG_LEN) as [Hlt | _]; [lia | reflexivity].
Qed.

Lemma body_content seen st ch :
  accumulated seen st -> is_terminator ch = false ->
  exists st', (forall w, loop_body (RecvByte ch) st w = Ok (Continue st', w))
              /\ accumulated (seen ++ [ch]) st'.
Proof.
  intros [Ht Hc Hs Hf Hw] Hch.
  destruct (decide (length seen < 20)%nat) as [Hlt | Hge].
  - eexists. split.
    + intros w. apply body_stores; [exact Hch | unfold MAX_MSG_LEN; lia | exact Hs].
    + rewrite Nat.min_l in Ht, Hc by lia.
      rewrite (take_ge seen) in Hc by lia.
      split; simpl; rewrite ?length_app; simpl.
      * rewrite Nat.min_l by lia. lia.
      * rewrite Nat.min_l by lia. rewrite Ht, Nat2Z.id.
        replace (length seen + 1)%nat with (S (length seen)) by lia.
        erewrite take_S_r by (apply list_lookup_insert_eq; lia).
        rewrite take_insert_ge by lia. rewrite Hc.
        rewrite take_ge by (rewrite length_app; simpl; lia). reflexivity.
      * rewrite length_insert. exact Hs.
      * rewrite Hf. rewrite !bool_decide_eq_false_2 by lia. reflexivity.
      * rewrite Hw, Ht.
        replace (Z.of_nat (length seen) + 1) with (Z.of_nat (S (length seen))) by lia.
        rewrite seqZ_S. reflexivity.
  - eexists. split.
    + intros w. apply body_discards; [exact Hch | unfold MAX_MSG_LEN; lia].
    + rewrite Nat.min_r in Ht, Hc by lia.
      split; simpl; rewrite ?length_app; simpl.
      * rewrite Nat.min_r by lia. exact Ht.
      * rewrite Nat.min_r by lia. rewrite take_app_le by lia. exact Hc.
      * exact Hs.
      * rewrite bool_decide_eq_true_2 by lia. reflexivity.
      * exact Hw.
Qed.

(** A stretch of content bytes and interruptions is read to its end. *)
Lemma read_loop_absorb pre :
  Forall keeps_reading pre ->
  forall seen st, accumulated seen st ->
  exists st', accumulated (seen ++ content pre) st'
              /\ forall rest w, read_loop (pre ++ rest) st w = read_loop rest st' w.
Proof.
  induction 1 as [| r pre Hr _ IH]; intros seen st Hacc.
  - exists st. split; [rewrite app_nil_r; exact Hacc | reflexivity].
  - destruct r as [ch | | e]; simpl in Hr; [| contradiction | subst e].
    + destruct (body_content seen st ch Hacc Hr) as (st1 & Hbody & Hacc1).
      destruct (IH _ _ Hacc1) as (st' & Hacc' & Hrun).
      exists st'. split.
      * change (content (RecvByte ch :: pre)) with (ch :: content pre).
        rewrite cons_middle, app_assoc. exact Hacc'.
      * intros rest w. simpl. rewrite Hbody, Hrun. apply read_loop_set_rx.
    + destruct (IH _ _ Hacc) as (st' & Hacc' & Hrun).
      exists st'. split; [exact Hacc' |].
      intros rest w. simpl. rewrite Hrun. apply read_loop_set_rx.
Qed.

Lemma read_loop_stop r rest st w :
  stops_reading r ->
  read_loop (r :: rest) st w =
    Ok (st, mkWorld rest (tx w) (wire w) (stdio w ++ recv_diag r) (closed w)).
Proof.
  intros Hr. destruct r as [ch | | e]; simpl in *.
  - rewrite Hr. simpl. rewrite app_nil_r. reflexivity.
  - rewrite app_nil_r. reflexivity.
  - destruct (Z.eqb_spec e EINTR) as [-> | _]; [contradiction | reflexivity].
Qed.

Lemma read_message_stream indet pre r rest w :
  Forall keeps_reading pre -> stops_reading r -> rx w = pre ++ r :: rest ->
  exists st, accumulated (content pre) st
             /\ read_message indet w =
                  Ok (terminated st,
                      mkWorld rest (tx w) (wire w) (stdio w ++ recv_diag r) (closed w)).
Proof.
  intros Hpre Hr Hrx.
  destruct (read_loop_absorb pre Hpre [] _ (accumulated_fresh indet))
    as (st & Hacc & Hrun).
  exists st. split; [exact Hacc |].
  unfold read_message, bind, reading. rewrite Hrx, Hrun, read_loop_stop by exact Hr.
  destruct Hacc as [Ht _ Hs _ _].
  rewrite store_in_bounds by lia. reflexivity.
Qed.

(** ** Lemmas on the response path *)

Lemma respond_silent st w :
  too_long st = 0 -> total st = 0 -> respond st w = Ok (tt, put_log LogNoData w).
Proof. intros Hf Ht. unfold respond. rewrite Hf, Ht. reflexivity. Qed.

Lemma respond_overflow st w k more :
  too_long st = 1 -> tx w = SendAccepts k :: more ->
  respond st w =
    Ok (tt, put_log LogOverlong (put_wire (take k err_message) (set_tx more w))).
Proof.
  intros Hf Htx. unfold respond. rewrite Hf. simpl.
  unfold bind, send. simpl. rewrite Htx. reflexivity.
Qed.

Lemma respond_overflow_refused st w e more :
  too_long st = 1 -> tx w = SendErr e :: more ->
  exists lg, respond st w =
    Ok (tt, mkWorld (rx w) more (wire w) (stdio w ++ lg) (closed w)).
Proof.
  intros Hf Htx. unfold respond. rewrite Hf. simpl.
  unfold bind, send. simpl. rewrite Htx. simpl.
  destruct (e =? EPIPE); simpl; unfold printf, put_log; simpl.
  - eexists. reflexivity.
  - eexists. rewrite <- app_assoc. reflexivity.
Qed.

Lemma respond_overflow_stalled st w :
  too_long st = 1 -> tx w = [] -> respond st w = Blocked.
Proof.
  intros Hf Htx. unfold respond. rewrite Hf. simpl.
  unfold bind, send. simpl. rewrite Htx. reflexivity.
Qed.

Lemma respond_echo st w k1 k2 more payload :
  too_long st = 0 -> 0 < total st ->
  load_prefix (cells (buf st)) (total st) = Some payload ->
  is_Some (cstring (cells (buf st))) ->
  tx w = SendAccepts k1 :: SendAccepts k2 :: more ->
  exists s, respond st w =
    Ok (tt, mkWorld (rx w) more (wire w ++ take k1 payload ++ take k2 [LF])
                    (stdio w ++ [LogEchoed s (total st)]) (closed w)).
Proof.
  intros Hf Ht Hload [s Hs] Htx. exists s. unfold respond. rewrite Hf. simpl.
  destruct (Z.gtb_spec (total st) 0) as [_ | Hle]; [| lia].
  unfold bind, send. rewrite Hload. simpl. rewrite Htx. simpl.
  rewrite Hs. simpl. unfold put_log, put_wire. simpl.
  rewrite <- app_assoc. destruct k2; reflexivity.
Qed.

(** The locals once the loop is left and the NUL is stored. *)
Lemma terminated_payload seen st :
  accumulated seen st -> (length seen <= 20)%nat ->
  load_prefix (cells (buf (terminated st))) (total (terminated st)) = Some seen
  /\ is_Some (cstring (cells (buf (terminated st))))
  /\ too_long (terminated st) = 0
  /\ total (terminated st) = Z.of_nat (length seen).
Proof.
  intros [Ht Hc Hs Hf Hw] Hlen. rewrite Nat.min_l in Ht, Hc by lia.
  rewrite (take_ge seen) in Hc by lia. simpl. repeat split.
  - rewrite load_prefix_in_bounds by (rewrite length_insert; lia).
    rewrite Ht, Nat2Z.id, take_insert_ge by lia. rewrite Hc. reflexivity.
  - apply cstring_after_store. lia.
  - rewrite Hf, bool_decide_eq_false_2 by lia. reflexivity.
  - exact Ht.
Qed.

Lemma terminated_overflow seen st :
  accumulated seen st -> (20 < length seen)%nat -> too_long (terminated st) = 1.
Proof.
  intros [_ _ _ Hf _] Hlen. simpl.
  rewrite Hf, bool_decide_eq_true_2 by lia. reflexivity.
Qed.

(** ** The response after a stream that ends the loop *)

Section Stream.
Variable indet : nat -> byte.
Variables (pre rest : list recv_event) (r : recv_event).
Hypothesis Hpre : Forall keeps_reading pre.
Hypothesis Hr : stops_reading r.

Lemma response_silent answers :
  content pre = [] ->
  response indet (connect (pre ++ r :: rest) answers) = Ok [].
Proof.
  intros Hnone.
  destruct (read_message_stream indet pre r rest
              (connect (pre ++ r :: rest) answers) Hpre Hr eq_refl)
    as (st & Hacc & Hrun).
  rewrite Hnone in Hacc.
  destruct (terminated_payload [] st Hacc) as (_ & _ & Hf & Ht); [simpl; lia |].
  unfold response, handle_connection, bind. rewrite Hrun.
  rewrite respond_silent by assumption. reflexivity.
Qed.

Lemma response_echo k1 k2 more :
  (0 < length (content pre) <= 20)%nat ->
  (length (content pre) <= k1)%nat -> (1 <= k2)%nat ->
  response indet (connect (pre ++ r :: rest)
                          (SendAccepts k1 :: SendAccepts k2 :: more))
  = Ok (content pre ++ [LF]).
Proof.
  intros Hlen Hk1 Hk2.
  destruct (read_message_stream indet pre r rest
              (connect (pre ++ r :: rest) (SendAccepts k1 :: SendAccepts k2 :: more))
              Hpre Hr eq_refl)
    as (st & Hacc & Hrun).
  destruct (terminated_payload _ st Hacc) as (Hload & Hstr & Hf & Ht); [lia |].
  unfold response, handle_connection, bind. rewrite Hrun.
  edestruct (respond_echo (terminated st)) as (s & ->);
    [exact Hf | lia | exact Hload | exact Hstr | reflexivity |].
  rewrite (take_ge (content pre)), (take_ge [LF]) by (simpl; lia). reflexivity.
Qed.

Lemma response_overflow k more :
  (20 < length (content pre))%nat ->
  response indet (connect (pre ++ r :: rest) (SendAccepts k :: more))
  = Ok (take k err_message).
Proof.
  intros Hlen.
  destruct (read_message_stream indet pre r rest
              (connect (pre ++ r :: rest) (SendAccepts k :: more))
              Hpre Hr eq_refl)
    as (st & Hacc & Hrun).
  unfold response, handle_connection, bind. rewrite Hrun.
  erewrite respond_overflow;
    [| exact (terminated_overflow _ st Hacc Hlen) | reflexivity].
  reflexivity.
Qed.

Lemma response_overflow_any answers :
  (20 < length (content pre))%nat ->
  match response indet (connect (pre ++ r :: rest) answers) with
  | Ok bs => bs `prefix_of` err_message
  | Blocked => answers = []
  | Undefined => False
  end.
Proof.
  intros Hlen.
  destruct (read_message_stream indet pre r rest
              (connect (pre ++ r :: rest) answers) Hpre Hr eq_refl)
    as (st & Hacc & Hrun).
  pose proof (terminated_overflow _ st Hacc Hlen) as Hf.
  unfold response, handle_connection, bind. rewrite Hrun.
  destruct answers as [| [k | e] more].
  - rewrite respond_overflow_stalled by (exact Hf || reflexivity). reflexivity.
  - erewrite respond_overflow; [| exact Hf | reflexivity].
    simpl. exists (drop k err_message). symmetry. apply take_drop.
  - edestruct (respond_overflow_refused (terminated st)) as (lg & ->);
      [exact Hf | reflexivity |].
    simpl. apply prefix_nil.
Qed.
End Stream.

(** ** The bound on the locals is an invariant of the loop *)

Lemma bounded_fresh indet : bounded (fresh_locals indet).
Proof. repeat split; simpl; unfold MAX_MSG_LEN; lia. Qed.

Lemma accumulated_bounded seen st : accumulated seen st -> bounded st.
Proof.
  intros [Ht _ Hs _ Hw]. split; [| split].
  - unfold MAX_MSG_LEN. lia.
  - exact Hw.
  - exact Hs.
Qed.

Lemma body_bounded r st w :
  bounded st ->
  match loop_body r st w with
  | Ok (Continue st', _) | Ok (Break st', _) => bounded st'
  | Blocked | Undefined => False
  end.
Proof.
  intros Hst. pose proof Hst as (Ht & Hw & Hs).
  unfold MAX_MSG_LEN in Ht, Hs. simpl in Hs.
  destruct r as [ch | | e]; simpl.
  - destruct (is_terminator ch) eqn:Hch; simpl; [exact Hst |].
    destruct (Z.ltb_spec (total st) MAX_MSG_LEN) as [Hlt | Hge]; simpl.
    + unfold MAX_MSG_LEN in Hlt. unfold bind.
      rewrite store_in_bounds by lia. simpl.
      unfold bounded, MAX_MSG_LEN. simpl. repeat split; try lia.
      * rewrite Hw. replace (total st) with (Z.of_nat (Z.to_nat (total st))) by lia.
        replace (Z.of_nat (Z.to_nat (total st)) + 1)
          with (Z.of_nat (S (Z.to_nat (total st)))) by lia.
        rewrite seqZ_S. reflexivity.
      * rewrite length_insert. exact Hs.
    + unfold bounded, MAX_MSG_LEN. simpl. repeat split; assumption || lia.
  - exact Hst.
  - destruct (e =? EINTR); simpl; exact Hst.
Qed.

Lemma loop_states_bounded script :
  forall st w, bounded st -> Forall bounded (loop_states script st w).
Proof.
  induction script as [| r script IH]; intros st w Hst; simpl.
  - constructor; [exact Hst | constructor].
  - constructor; [exact Hst |].
    pose proof (body_bounded r st (set_rx script w) Hst) as Hstep.
    destruct (loop_body r st (set_rx script w)) as [[[st' | st'] w'] | |];
      try contradiction.
    + apply IH. exact Hstep.
    + constructor; [exact Hstep | constructor].
Qed.

Lemma read_loop_bounded script :
  forall st w, bounded st ->
  match read_loop script st w with
  | Ok (st', _) => bounded st'
  | Blocked => True
  | Undefined => False
  end.
Proof.
  induction script as [| r script IH]; intros st w Hst; simpl; [exact I |].
  pose proof (body_bounded r st (set_rx script w) Hst) as Hstep.
  destruct (loop_body r st (set_rx script w)) as [[[st' | st'] w'] | |];
    try contradiction.
  - apply IH. exact Hstep.
  - exact Hstep.
Qed.

Lemma read_message_bounded indet w :
  match read_message indet w with
  | Ok (st, _) => exists st0, bounded st0 /\ st = terminated st0
  | Blocked => True
  | Undefined => False
  end.
Proof.
  unfold read_message, bind, reading.
  pose proof (read_loop_bounded (rx w) _ w (bounded_fresh indet)) as Hloop.
  destruct (read_loop (rx w) (fresh_locals indet) w) as [[st w'] | |];
    [| exact I | contradiction].
  pose proof Hloop as (Ht & Hw & Hs). unfold MAX_MSG_LEN in Ht, Hs. simpl in Hs.
  rewrite store_in_bounds by lia.
  simpl. exists st. split; [exact Hloop | reflexivity].
Qed.

Lemma respond_defined st w : bounded st -> respond (terminated st) w <> Undefined.
Proof.
  intros (Ht & Hw & Hs). unfold MAX_MSG_LEN in Ht, Hs. simpl in Hs.
  unfold respond. simpl.
  assert (Hstr : is_Some (cstring (<[Z.to_nat (total st) := NUL]> (cells (buf st))))).
  { apply cstring_after_store. lia. }
  destruct Hstr as [s Hstr].
  destruct (negb (too_long st =? 0)).
  - unfold bind, send. simpl. destruct (tx w) as [| [k | e] more]; simpl;
      [discriminate | discriminate |].
    destruct (e =? EPIPE); discriminate.
  - destruct (total st >? 0); [| discriminate].
    unfold bind, send.
    rewrite load_prefix_in_bounds by (rewrite length_insert; lia).
    simpl. destruct (tx w) as [| [k | e] more]; simpl; [discriminate | |].
    + destruct more as [| [k2 | e2] more]; simpl; rewrite ?Hstr; discriminate.
    + destruct (e =? EPIPE); simpl; rewrite ?Hstr; [| discriminate].
      destruct more as [| [k2 | e2] more]; simpl; rewrite ?Hstr; discriminate.
Qed.

Lemma keeps_rx_ret {A} (a : A) : keeps_rx (ret a).
Proof. intros w a' w' H. injection H as _ <-. reflexivity. Qed.

Lemma keeps_rx_bind {A B} (m : io A) (k : A -> io B) :
  keeps_rx m -> (forall a, keeps_rx (k a)) -> keeps_rx (bind m k).
Proof.
  intros Hm Hk w b w' H. unfold bind in H.
  destruct (m w) as [[a w1] | |] eqn:E; try discriminate H.
  rewrite (Hk a _ _ _ H). exact (Hm _ _ _ E).
Qed.

Lemma keeps_rx_if {A} (c : bool) (m1 m2 : io A) :
  keeps_rx m1 -> keeps_rx m2 -> keeps_rx (if c then m1 else m2).
Proof. destruct c; auto. Qed.

Lemma keeps_rx_checked {A} (o : option A) : keeps_rx (checked o).
Proof.
  intros w a w' H. destruct o; [| discriminate H].
  injection H as _ <-. reflexivity.
Qed.

Lemma keeps_rx_send payload : keeps_rx (send payload).
Proof.
  intros w a w' H. unfold send in H.
  destruct (tx w) as [| [k | e] more]; [discriminate H | |];
    injection H as _ <-; reflexivity.
Qed.

Lemma keeps_rx_perror msg : keeps_rx (perror msg).
Proof. intros w a w' H. injection H as _ <-. reflexivity. Qed.

Lemma keeps_rx_printf ln : keeps_rx (printf ln).
Proof. intros w a w' H. injection H as _ <-. reflexivity. Qed.

Create HintDb io_rx.
#[local] Hint Resolve keeps_rx_ret keeps_rx_bind keeps_rx_if keeps_rx_checked
  keeps_rx_send keeps_rx_perror keeps_rx_printf : io_rx.

Lemma respond_keeps_rx st : keeps_rx (respond st).
Proof. unfold respond. auto 12 with io_rx. Qed.

Lemma handled_closed indet w st w' :
  handle_connection indet w = Ok (st, w') -> closed w' = true.
Proof.
  unfold handle_connection, bind, close, ret. intros H.
  repeat case_match; simplify_eq; reflexivity.
Qed.

(** End of stream and a terminator leave the loop in the same way. *)
Lemma handle_eof_as_terminator indet pre term rest answers :
  Forall keeps_reading pre -> is_terminator term = true ->
  handle_connection indet (connect (pre ++ RecvEof :: rest) answers)
  = handle_connection indet (connect (pre ++ RecvByte term :: rest) answers).
Proof.
  intros Hpre Hterm.
  destruct (read_loop_absorb pre Hpre [] _ (accumulated_fresh indet))
    as (st & _ & Hrun).
  unfold handle_connection, read_message, reading, bind. simpl.
  rewrite !Hrun, !read_loop_stop by (simpl; auto). reflexivity.
Qed.

Lemma read_loop_last_state script :
  forall st w st' w',
  read_loop script st w = Ok (st', w') ->
  last (loop_states script st w) = Some st'.
Proof.
  induction script as [| r script IH]; intros st w st' w' H; simpl in *.
  - discriminate H.
  - destruct (loop_body r st (set_rx script w)) as [[[st1 | st1] w1] | |];
      try discriminate H.
    + specialize (IH _ _ _ _ H).
      destruct (loop_states script st1 w1) eqn:E; [discriminate IH | exact IH].
    + injection H as <- <-. reflexivity.
Qed.

(** While neither a terminator nor the end of the stream has come, the loop
    keeps asking for the next byte. *)
Lemma read_message_starved indet pre w :
  Forall keeps_reading pre -> rx w = pre -> read_message indet w = Blocked.
Proof.
  intros Hpre Hrx.
  destruct (read_loop_absorb pre Hpre [] _ (accumulated_fresh indet))
    as (st & _ & Hrun).
  unfold read_message, bind, reading. rewrite Hrx.
  rewrite <- (app_nil_r pre), Hrun. reflexivity.
Qed.

(** * The claims *)

(** C1, as amended: for every non-empty content C of at most 20 bytes with
    no '\n' and no '\r', when the input stream is C followed by a terminator
    byte and the kernel takes each send whole, the bytes written to the
    connection are exactly C followed by a single '\n'. *)
Theorem C1_echo_within_bound indet C term rest k1 k2 more :
  (0 < length C <= 20)%nat -> no_terminator C -> term = LF \/ term = CR ->
  (length C <= k1)%nat -> (1 <= k2)%nat ->
  response indet (connect (sends C ++ RecvByte term :: rest)
                          (SendAccepts k1 :: SendAccepts k2 :: more))
  = Ok (C ++ [LF]).
Proof.
  intros Hlen HC Hterm Hk1 Hk2.
  pose proof (response_echo indet (sends C) rest (RecvByte term)
                (sends_keep_reading C HC) (proj2 (is_terminator_true term) Hterm)
                k1 k2 more) as E.
  rewrite content_sends in E. apply E; assumption.
Qed.

Lemma C1_echo_within_bound_witness :
  response (fun _ => x2a)
           (connect (sends [x68; x69] ++ RecvByte LF :: [RecvByte x21])
                    [SendAccepts 2; SendAccepts 1])
  = Ok ([x68; x69] ++ [LF]).
Proof.
  apply C1_echo_within_bound.
  - simpl. lia.
  - repeat constructor; discriminate.
  - left. reflexivity.
  - simpl. lia.
  - lia.
Defined.

(** C1 as stated fails at the empty content: a terminator alone is
    answered with nothing, not with a '\n'. *)
Lemma C1_empty_content_counterexample :
  ~ ((length (@nil byte) <= 20)%nat -> no_terminator [] ->
     response (fun _ => NUL)
              (connect (sends [] ++ [RecvByte CR]) [SendAccepts 1; SendAccepts 1])
     = Ok ([] ++ [LF])).
Proof.
  intros H. specialize (H ltac:(simpl; lia) ltac:(constructor)).
  vm_compute in H. discriminate H.
Qed.

(** C2: for every content C of more than 20 bytes with no '\n' and no
    '\r', when the input stream is C followed by a terminator byte, the
    bytes written are exactly "ERR too long\n" (the kernel taking the send
    whole); whatever the kernel answers, only a prefix of that message is
    ever written, so no content byte is. *)
Theorem C2_overlong_rejected indet C term rest :
  (20 < length C)%nat -> no_terminator C -> term = LF \/ term = CR ->
  (forall k more, (13 <= k)%nat ->
     response indet (connect (sends C ++ RecvByte term :: rest)
                             (SendAccepts k :: more))
     = Ok err_message)
  /\ (forall answers,
        match response indet (connect (sends C ++ RecvByte term :: rest) answers) with
        | Ok bs => bs `prefix_of` err_message
        | Blocked => answers = []
        | Undefined => False
        end).
Proof.
  intros Hlen HC Hterm.
  pose proof (sends_keep_reading C HC) as Hpre.
  pose proof (proj2 (is_terminator_true term) Hterm) as Hr.
  split.
  - intros k more Hk.
    rewrite (response_overflow indet (sends C) rest (RecvByte term) Hpre Hr)
      by (rewrite content_sends; exact Hlen).
    rewrite take_ge by (simpl; lia). reflexivity.
  - intros answers.
    apply (response_overflow_any indet (sends C) rest (RecvByte term) Hpre Hr).
    rewrite content_sends. exact Hlen.
Qed.

Lemma C2_overlong_rejected_witness :
  response (fun _ => x2a)
           (connect (sends (replicate 21 x61) ++ RecvByte LF :: []) [SendAccepts 13])
  = Ok err_message.
Proof.
  refine (proj1 (C2_overlong_rejected (fun _ => x2a) (replicate 21 x61) LF [] _ _ _)
                13%nat [] _).
  - simpl. lia.
  - repeat constructor; discriminate.
  - left. reflexivity.
  - lia.
Defined.

(** C3, as amended: when the input stream starts with a terminator byte
    '\n', the handler writes nothing to the connection and calls no send;
    it records that the connection brought no data and closes. *)
Theorem C3_lone_terminator_silent indet rest answers :
  exists st,
    handle_connection indet (connect (RecvByte LF :: rest) answers)
    = Ok (st, mkWorld rest answers [] [LogNoData] true)
  /\ response indet (connect (RecvByte LF :: rest) answers) = Ok [].
Proof. eexists. split; reflexivity. Qed.

(** C3 as stated fails: the response to a lone '\n' is not a '\n'. *)
Lemma C3_lone_terminator_counterexample :
  ~ (response (fun _ => NUL) (connect [RecvByte LF] [SendAccepts 1; SendAccepts 1])
     = Ok [LF]).
Proof. vm_compute. discriminate. Qed.

(** C4, as amended: a read failure other than an interruption by a signal
    ends the loop as the end of the stream does, and the response is chosen
    from what was accumulated: nothing is written when no content byte
    came before the failure; otherwise the accumulated bytes and a '\n' are
    written, or the error message when the flag is raised.  The connection
    is closed in every case. *)
Theorem C4_read_error_answered_from_state indet pre e rest :
  Forall keeps_reading pre -> e <> EINTR ->
  (content pre = [] ->
   forall answers,
     response indet (connect (pre ++ RecvErr e :: rest) answers) = Ok [])
  /\ ((0 < length (content pre) <= 20)%nat ->
      forall k1 k2 more, (length (content pre) <= k1)%nat -> (1 <= k2)%nat ->
        response indet (connect (pre ++ RecvErr e :: rest)
                                (SendAccepts k1 :: SendAccepts k2 :: more))
        = Ok (content pre ++ [LF]))
  /\ ((20 < length (content pre))%nat ->
      forall k more, (13 <= k)%nat ->
        response indet (connect (pre ++ RecvErr e :: rest) (SendAccepts k :: more))
        = Ok err_message)
  /\ (forall answers st w',
        handle_connection indet (connect (pre ++ RecvErr e :: rest) answers)
        = Ok (st, w') -> closed w' = true).
Proof.
  intros Hpre He. repeat split.
  - intros Hnone answers. apply response_silent; assumption.
  - intros Hlen k1 k2 more Hk1 Hk2. apply response_echo; assumption.
  - intros Hlen k more Hk.
    rewrite response_overflow by assumption.
    rewrite take_ge by (simpl; lia). reflexivity.
  - intros answers st w' H. exact (handled_closed _ _ _ _ H).
Qed.

Lemma C4_read_error_answered_from_state_witness :
  response (fun _ => x2a)
           (connect ([RecvErr EINTR; RecvByte x61] ++ RecvErr ENOMEM :: [])
                    [SendAccepts 1; SendAccepts 1])
  = Ok (content [RecvErr EINTR; RecvByte x61] ++ [LF]).
Proof.
  refine (proj1 (proj2 (C4_read_error_answered_from_state
                          (fun _ => x2a) [RecvErr EINTR; RecvByte x61] ENOMEM [] _ _))
                _ 1%nat 1%nat [] _ _).
  - repeat constructor.
  - discriminate.
  - simpl. lia.
  - simpl. lia.
  - lia.
Defined.

(** C4 as stated fails: a byte read before the failure is echoed. *)
Lemma C4_read_error_counterexample :
  ~ (response (fun _ => NUL)
              (connect [RecvByte x61; RecvErr ENOMEM] [SendAccepts 1; SendAccepts 1])
     = Ok []).
Proof. vm_compute. discriminate. Qed.

(** C5: at every head of the read loop and at its exit, for every input
    stream, the count is between 0 and MAX_MSG_LEN (20), the bytes stored
    in the buffer are as many as the count, one per index below it, so at
    most 20, and a content byte that comes when the count is 20 only sets
    the overflow flag: buffer and count stay as they are. *)
Theorem C5_buffer_bound indet script w :
  Forall (fun st =>
            0 <= total st <= MAX_MSG_LEN
            /\ writes (buf st) = seqZ 0 (total st)
            /\ (length (writes (buf st)) <= 20)%nat
            /\ length (cells (buf st)) = 21%nat
            /\ forall ch w', is_terminator ch = false -> total st = MAX_MSG_LEN ->
                 loop_body (RecvByte ch) st w'
                 = Ok (Continue (mkLocals (buf st) (total st) 1), w'))
         (loop_states script (fresh_locals indet) w).
Proof.
  eapply Forall_impl; [apply loop_states_bounded, bounded_fresh |].
  intros st (Ht & Hw & Hs).
  split; [exact Ht |]. split; [exact Hw |]. split; [| split].
  - rewrite Hw, length_seqZ. unfold MAX_MSG_LEN in Ht. lia.
  - exact Hs.
  - intros ch w' Hch Hfull. apply body_discards; [exact Hch | lia].
Qed.

Lemma C5_buffer_bound_witness :
  last (loop_states (sends (replicate 22 x61)) (fresh_locals (fun _ => x2a))
                    (connect (sends (replicate 22 x61)) []))
  = Some (mkLocals (mkArray (replicate 20 x61 ++ [x2a]) (seqZ 0 20)) 20 1)
  /\ Forall (fun st => 0 <= total st <= MAX_MSG_LEN
                       /\ (length (writes (buf st)) <= 20)%nat)
            (loop_states (sends (replicate 22 x61)) (fresh_locals (fun _ => x2a))
                         (connect (sends (replicate 22 x61)) [])).
Proof.
  split; [vm_compute; reflexivity |].
  eapply Forall_impl;
    [apply (C5_buffer_bound (fun _ => x2a) (sends (replicate 22 x61))) |].
  intros st (Ht & _ & Hn & _). split; assumption.
Defined.

(** C6, as amended: for every content C with no terminator byte, the run
    of the handler on "C then end of stream" equals its run on "C then a
    terminator byte": same locals (buffer, count, flag), same bytes
    written, same rest of the stream.  Content of 1 to 20 bytes is echoed
    with a trailing '\n', content of more than 20 bytes gets the error
    message, and empty content gets nothing. *)
Theorem C6_eof_as_terminator indet C term rest :
  no_terminator C -> term = LF \/ term = CR ->
  (forall answers,
     handle_connection indet (connect (sends C ++ RecvEof :: rest) answers)
     = handle_connection indet (connect (sends C ++ RecvByte term :: rest) answers))
  /\ ((0 < length C <= 20)%nat ->
      forall k1 k2 more, (length C <= k1)%nat -> (1 <= k2)%nat ->
        response indet (connect (sends C ++ RecvEof :: rest)
                                (SendAccepts k1 :: SendAccepts k2 :: more))
        = Ok (C ++ [LF]))
  /\ ((20 < length C)%nat ->
      forall k more, (13 <= k)%nat ->
        response indet (connect (sends C ++ RecvEof :: rest) (SendAccepts k :: more))
        = Ok err_message)
  /\ (C = [] ->
      forall answers,
        response indet (connect (sends C ++ RecvEof :: rest) answers) = Ok []).
Proof.
  intros HC Hterm.
  pose proof (sends_keep_reading C HC) as Hpre.
  pose proof (proj2 (is_terminator_true term) Hterm) as Hr.
  repeat split.
  - intros answers. apply handle_eof_as_terminator; assumption.
  - intros Hlen k1 k2 more Hk1 Hk2.
    pose proof (response_echo indet (sends C) rest RecvEof Hpre I k1 k2 more) as E.
    rewrite content_sends in E. apply E; assumption.
  - intros Hlen k more Hk.
    rewrite (response_overflow indet (sends C) rest RecvEof Hpre I)
      by (rewrite content_sends; exact Hlen).
    rewrite take_ge by (simpl; lia). reflexivity.
  - intros -> answers. apply response_silent; [constructor | exact I | reflexivity].
Qed.

Lemma C6_eof_as_terminator_witness :
  handle_connection (fun _ => x2a)
    (connect (sends [x68; x69] ++ RecvEof :: []) [SendAccepts 2; SendAccepts 1])
  = handle_connection (fun _ => x2a)
    (connect (sends [x68; x69] ++ RecvByte CR :: []) [SendAccepts 2; SendAccepts 1]).
Proof.
  refine (proj1 (C6_eof_as_terminator (fun _ => x2a) [x68; x69] CR [] _ _)
                [SendAccepts 2; SendAccepts 1]).
  - repeat constructor; discriminate.
  - right. reflexivity.
Defined.

(** C6 as stated fails at the empty content: the two runs agree, but
    content of length 0 is not echoed with a trailing '\n'. *)
Lemma C6_empty_content_counterexample :
  ~ (handle_connection (fun _ => NUL)
       (connect (sends [] ++ [RecvEof]) [SendAccepts 1; SendAccepts 1])
     = handle_connection (fun _ => NUL)
         (connect (sends [] ++ [RecvByte LF]) [SendAccepts 1; SendAccepts 1])
     /\ ((length (@nil byte) <= 20)%nat ->
         response (fun _ => NUL)
           (connect (sends [] ++ [RecvEof]) [SendAccepts 1; SendAccepts 1])
         = Ok ([] ++ [LF]))).
Proof.
  intros [_ H]. specialize (H ltac:(simpl; lia)). vm_compute in H. discriminate H.
Qed.

(** C7: for every input stream, overlong or not, made of content bytes
    (and interrupted reads) followed by a terminator byte or the end of the
    stream, the read loop takes exactly the results up to and including
    that terminator or end, before anything is sent: nothing is written and
    no send is called meanwhile, and the response path reads no further.
    Before a terminator or the end has come, the loop goes on reading. *)
Theorem C7_reads_through_terminator indet pre r rest w :
  Forall keeps_reading pre ->
  r = RecvEof \/ r = RecvByte LF \/ r = RecvByte CR ->
  rx w = pre ++ r :: rest ->
  (exists st, read_message indet w
              = Ok (st, mkWorld rest (tx w) (wire w) (stdio w) (closed w)))
  /\ match handle_connection indet w with
     | Ok (_, w') => rx w' = rest
     | Blocked => True
     | Undefined => False
     end
  /\ read_message indet (set_rx pre w) = Blocked.
Proof.
  intros Hpre Hr Hrx.
  assert (Hstop : stops_reading r /\ recv_diag r = []).
  { destruct Hr as [-> | [-> | ->]]; split; reflexivity. }
  destruct Hstop as [Hstop Hdiag].
  destruct (read_message_stream indet pre r rest w Hpre Hstop Hrx)
    as (st & Hacc & Hrun).
  rewrite Hdiag, app_nil_r in Hrun.
  split; [eauto | split].
  - unfold handle_connection, bind. rewrite Hrun.
    pose proof (accumulated_bounded _ _ Hacc) as Hb.
    pose proof (respond_defined st (mkWorld rest (tx w) (wire w) (stdio w) (closed w)) Hb)
      as Hdef.
    destruct (respond (terminated st) _) as [[[] w1] | |] eqn:E;
      [| exact I | congruence].
    simpl. exact (respond_keeps_rx _ _ _ _ E).
  - apply (read_message_starved indet pre); [exact Hpre | reflexivity].
Qed.

Lemma C7_reads_through_terminator_witness :
  exists st,
    read_message (fun _ => x2a)
      (connect (sends (replicate 30 x61) ++ RecvByte LF :: [RecvByte x62]) [])
    = Ok (st, mkWorld [RecvByte x62] [] [] [] false).
Proof.
  refine (proj1 (C7_reads_through_terminator (fun _ => x2a)
                   (sends (replicate 30 x61)) (RecvByte LF) [RecvByte x62]
                   (connect (sends (replicate 30 x61) ++ RecvByte LF :: [RecvByte x62]) [])
                   _ _ _)).
  - apply sends_keep_reading. apply Forall_replicate. split; discriminate.
  - right. left. reflexivity.
  - reflexivity.
Defined.

(** C8: when the stream ends before any byte has come, the handler
    writes nothing to the connection and calls no send: no echo, no
    newline, no error message. *)
Theorem C8_immediate_eof_silent indet rest answers :
  exists st,
    handle_connection indet (connect (RecvEof :: rest) answers)
    = Ok (st, mkWorld rest answers [] [LogNoData] true)
  /\ response indet (connect (RecvEof :: rest) answers) = Ok [].
Proof. eexists. split; reflexivity. Qed.

(** C9: a read interrupted by a signal (EINTR) leaves the locals as they
    were (buffer, count, flag) and prints nothing, and the loop goes on
    with the next read as if the interrupted one had not happened. *)
Theorem C9_interrupted_read_retried st script w :
  loop_body (RecvErr EINTR) st w = Ok (Continue st, w)
  /\ read_loop (RecvErr EINTR :: script) st w = read_loop script st w
  /\ reading st (set_rx (RecvErr EINTR :: script) w) = reading st (set_rx script w).
Proof.
  split; [reflexivity | split].
  - simpl. apply read_loop_set_rx.
  - unfold reading. simpl. rewrite !read_loop_set_rx. reflexivity.
Qed.

(** C10: for every input stream and every answer of the kernel, the
    stores of content bytes go to indices below 20, the final NUL goes to
    the index equal to the count, which is at most 20 and so inside the
    21 bytes of the buffer, and no access of the handler leaves its
    object. *)
Theorem C10_buffer_writes_in_bounds indet w :
  Forall (fun st => Forall (fun i => 0 <= i < MAX_MSG_LEN) (writes (buf st)))
         (loop_states (rx w) (fresh_locals indet) w)
  /\ match read_message indet w with
     | Ok (st, _) =>
         0 <= total st <= MAX_MSG_LEN
         /\ writes (buf st) = seqZ 0 (total st) ++ [total st]
         /\ length (cells (buf st)) = Z.to_nat (MAX_MSG_LEN + 1)
     | Blocked => True
     | Undefined => False
     end
  /\ handle_connection indet w <> Undefined.
Proof.
  split; [| split].
  - eapply Forall_impl; [apply loop_states_bounded, bounded_fresh |].
    intros st (Ht & Hw & _). rewrite Hw. apply Forall_seqZ. intros i Hi. lia.
  - pose proof (read_message_bounded indet w) as Hm.
    destruct (read_message indet w) as [[st w'] | |]; [| exact I | contradiction].
    destruct Hm as (st0 & (Ht & Hw & Hs) & ->). simpl.
    rewrite Hw, length_insert. auto.
  - pose proof (read_message_bounded indet w) as Hm.
    unfold handle_connection, bind.
    destruct (read_message indet w) as [[st w'] | |];
      [| discriminate | contradiction].
    destruct Hm as (st0 & Hb & ->).
    pose proof (respond_defined st0 w' Hb) as Hdef.
    destruct (respond (terminated st0) w') as [[[] w1] | |];
      [discriminate | discriminate | congruence].
Qed.

(** * Further properties of the handler *)

(** ** C strings in the buffer *)

Lemma cstring_app_NUL (a b : list byte) :
  cstring (a ++ NUL :: b) = cstring (a ++ [NUL]).
Proof.
  induction a as [| c a IH]; [reflexivity |].
  simpl. rewrite IH. reflexivity.
Qed.

Lemma cstring_store (l : list byte) (n : nat) :
  (n < length l)%nat -> cstring (<[n := NUL]> l) = cstring (take n l ++ [NUL]).
Proof.
  intros Hn. rewrite insert_take_drop by exact Hn. apply cstring_app_NUL.
Qed.


Lemma cstring_prefix (a s : list byte) : cstring a = Some s -> s `prefix_of` a.
Proof.
  revert s. induction a as [| c a IH]; intros s H; simpl in H; [discriminate H |].
  destruct (Byte.eqb c NUL).
  - injection H as <-. apply prefix_nil.
  - destruct (cstring a) as [s' |]; [| discriminate H].
    injection H as <-. apply prefix_cons, IH. reflexivity.
Qed.


(** ** The cells the handler never wrote do not matter *)

Lemma same_view_fresh indet1 indet2 :
  same_view (fresh_locals indet1) (fresh_locals indet2).
Proof. repeat split. Qed.

Lemma body_view r st1 st2 w :
  same_view st1 st2 -> bounded st1 -> bounded st2 ->
  match loop_body r st1 w, loop_body r st2 w with
  | Ok (Continue a, wa), Ok (Continue b, wb)
  | Ok (Break a, wa), Ok (Break b, wb) => same_view a b /\ wa = wb
  | _, _ => False
  end.
Proof.
  intros Hv (Ht1 & _ & Hs1) (Ht2 & _ & Hs2).
  pose proof Hv as (Ht & Hf & Hw & Hc).
  unfold MAX_MSG_LEN in Ht1, Ht2, Hs1, Hs2. simpl in Hs1, Hs2.
  destruct r as [ch | | e]; simpl.
  - destruct (is_terminator ch); simpl; [auto |].
    rewrite <- Ht.
    destruct (Z.ltb_spec (total st1) MAX_MSG_LEN) as [Hlt | Hge];
      unfold MAX_MSG_LEN in *.
    + unfold bind. rewrite !store_in_bounds by lia. simpl.
      split; [| reflexivity]. unfold same_view. simpl.
      split; [reflexivity |]. split; [exact Hf |].
      split; [rewrite Hw; reflexivity |].
      * rewrite <- Ht in Hc.
        replace (Z.to_nat (total st1 + 1)) with (S (Z.to_nat (total st1))) by lia.
        erewrite !take_S_r by (apply list_lookup_insert_eq; lia).
        rewrite !take_insert_ge by lia. rewrite Hc. reflexivity.
    + simpl. split; [| reflexivity]. rewrite <- Ht in Hc.
      unfold same_view. simpl. auto.
  - auto.
  - destruct (e =? EINTR); simpl; auto.
Qed.

Lemma read_loop_view script :
  forall st1 st2 w,
  same_view st1 st2 -> bounded st1 -> bounded st2 ->
  match read_loop script st1 w, read_loop script st2 w with
  | Ok (a, wa), Ok (b, wb) => same_view a b /\ wa = wb /\ bounded a /\ bounded b
  | Blocked, Blocked => True
  | _, _ => False
  end.
Proof.
  induction script as [| r script IH]; intros st1 st2 w Hv Hb1 Hb2; simpl;
    [exact I |].
  pose proof (body_view r st1 st2 (set_rx script w) Hv Hb1 Hb2) as Hstep.
  pose proof (body_bounded r st1 (set_rx script w) Hb1) as Hn1.
  pose proof (body_bounded r st2 (set_rx script w) Hb2) as Hn2.
  destruct (loop_body r st1 (set_rx script w)) as [[[a | a] wa] | |];
    destruct (loop_body r st2 (set_rx script w)) as [[[b | b] wb] | |];
    try contradiction.
  - destruct Hstep as [Hv' <-]. apply IH; assumption.
  - destruct Hstep as [Hv' <-]. auto.
Qed.

Lemma respond_view st1 st2 w :
  same_view st1 st2 -> bounded st1 -> bounded st2 ->
  respond (terminated st1) w = respond (terminated st2) w.
Proof.
  intros (Ht & Hf & Hw & Hc) (Ht1 & _ & Hs1) (Ht2 & _ & Hs2).
  unfold MAX_MSG_LEN in Ht1, Ht2, Hs1, Hs2. simpl in Hs1, Hs2.
  assert (Hload : load_prefix (cells (buf (terminated st1))) (total st1)
                  = load_prefix (cells (buf (terminated st2))) (total st2)).
  { simpl. rewrite !load_prefix_in_bounds by (rewrite length_insert; lia).
    rewrite !take_insert_ge by lia. rewrite Hc. reflexivity. }
  assert (Hstr : cstring (cells (buf (terminated st1)))
                 = cstring (cells (buf (terminated st2)))).
  { simpl. rewrite !cstring_store by lia. rewrite Hc. reflexivity. }
  unfold respond.
  change (total (terminated st1)) with (total st1).
  change (total (terminated st2)) with (total st2).
  change (too_long (terminated st1)) with (too_long st1).
  change (too_long (terminated st2)) with (too_long st2).
  rewrite Hload, Hstr, Ht, Hf. reflexivity.
Qed.

(** ** Interrupted reads leave no trace *)

Lemma read_loop_skip_interrupts pre :
  Forall keeps_reading pre ->
  forall tail st w,
    read_loop (pre ++ tail) st w = read_loop (sends (content pre) ++ tail) st w.
Proof.
  induction 1 as [| r pre Hr _ IH]; intros tail st w; [reflexivity |].
  destruct r as [ch | | e]; simpl in Hr; [| contradiction | subst e].
  - change (content (RecvByte ch :: pre)) with (ch :: content pre).
    simpl. rewrite Hr.
    destruct (total st <? MAX_MSG_LEN); simpl.
    + unfold bind, checked. destruct (store (buf st) (total st) ch); [| reflexivity].
      simpl. rewrite !read_loop_set_rx. apply IH.
    + rewrite !read_loop_set_rx. apply IH.
  - simpl. rewrite read_loop_set_rx. apply IH.
Qed.

Lemma read_loop_from_connect script st answers :
  read_loop script st (connect script answers)
  = read_loop script st (connect [] answers).
Proof. apply (read_loop_set_rx script script st (connect [] answers)). Qed.

Lemma reading_connect st script answers :
  reading st (connect script answers) = read_loop script st (connect [] answers).
Proof. unfold reading. apply read_loop_from_connect. Qed.

Lemma read_message_view indet1 indet2 w :
  match read_message indet1 w, read_message indet2 w with
  | Ok (s1, w1), Ok (s2, w2) =>
      exists a b, s1 = terminated a /\ s2 = terminated b
                  /\ same_view a b /\ bounded a /\ bounded b /\ w1 = w2
  | Blocked, Blocked => True
  | _, _ => False
  end.
Proof.
  unfold read_message, reading, bind.
  pose proof (read_loop_view (rx w) _ _ w (same_view_fresh indet1 indet2)
                (bounded_fresh indet1) (bounded_fresh indet2)) as H.
  destruct (read_loop (rx w) (fresh_locals indet1) w) as [[a wa] | |];
    destruct (read_loop (rx w) (fresh_locals indet2) w) as [[b wb] | |];
    try contradiction; [| exact I].
  destruct H as (Hv & <- & Ha & Hb).
  pose proof Ha as (Ht1 & _ & Hs1). pose proof Hb as (Ht2 & _ & Hs2).
  unfold MAX_MSG_LEN in Ht1, Ht2, Hs1, Hs2.
  rewrite !store_in_bounds by lia. simpl.
  exists a, b.
  exact (conj eq_refl (conj eq_refl (conj Hv (conj Ha (conj Hb eq_refl))))).
Qed.

(** The stream up to the event that ends the loop fixes the locals. *)
Lemma read_message_after indet pre :
  Forall keeps_reading pre ->
  exists st, accumulated (content pre) st
    /\ forall r rest w, stops_reading r -> rx w = pre ++ r :: rest ->
         read_message indet w
         = Ok (terminated st,
               mkWorld rest (tx w) (wire w) (stdio w ++ recv_diag r) (closed w)).
Proof.
  intros Hpre.
  destruct (read_loop_absorb pre Hpre [] _ (accumulated_fresh indet))
    as (st & Hacc & Hrun).
  exists st. split; [exact Hacc |]. intros r rest w Hr Hrx.
  unfold read_message, bind, reading. rewrite Hrx, Hrun, read_loop_stop by exact Hr.
  destruct Hacc as [Ht _ Hs _ _].
  rewrite store_in_bounds by lia. reflexivity.
Qed.

(** ** The response path looks only at the connection *)

Lemma same_conn_refl w : same_conn w w.
Proof. repeat split. Qed.

Lemma oblivious_ret {A} (a : A) : oblivious (ret a).
Proof. intros w1 w2 Hw. simpl. auto. Qed.

Lemma oblivious_bind {A B} (m : io A) (k : A -> io B) :
  oblivious m -> (forall a, oblivious (k a)) -> oblivious (bind m k).
Proof.
  intros Hm Hk w1 w2 Hw. unfold bind. specialize (Hm w1 w2 Hw).
  destruct (m w1) as [[a1 w1'] | |]; destruct (m w2) as [[a2 w2'] | |];
    simpl in Hm; try contradiction; try exact I.
  destruct Hm as [-> Hw']. apply Hk. exact Hw'.
Qed.

Lemma oblivious_if {A} (c : bool) (m1 m2 : io A) :
  oblivious m1 -> oblivious m2 -> oblivious (if c then m1 else m2).
Proof. destruct c; auto. Qed.

Lemma oblivious_checked {A} (o : option A) : oblivious (checked o).
Proof. intros w1 w2 Hw. destruct o; simpl; auto. Qed.

Lemma oblivious_send payload : oblivious (send payload).
Proof.
  intros w1 w2 (Htx & Hwire & Hcl). unfold send. rewrite Htx.
  destruct (tx w2) as [| [k | e] more]; simpl; [exact I | |].
  - split; [reflexivity |]. repeat split; simpl; congruence.
  - split; [reflexivity |]. repeat split; simpl; congruence.
Qed.

Lemma oblivious_perror msg : oblivious (perror msg).
Proof. intros w1 w2 Hw. simpl. split; [reflexivity | exact Hw]. Qed.

Lemma oblivious_printf ln : oblivious (printf ln).
Proof. intros w1 w2 Hw. simpl. split; [reflexivity | exact Hw]. Qed.

Lemma oblivious_close : oblivious close.
Proof.
  intros w1 w2 (Htx & Hwire & _). simpl. split; [reflexivity |].
  repeat split; assumption.
Qed.

Create HintDb io_obl.
#[local] Hint Resolve oblivious_ret oblivious_bind oblivious_if oblivious_checked
  oblivious_send oblivious_perror oblivious_printf oblivious_close : io_obl.

Lemma respond_oblivious st : oblivious (respond st).
Proof. unfold respond. auto 12 with io_obl. Qed.

(** ** The echo path under every answer of the kernel *)

Lemma respond_echo_cases st w payload s :
  too_long st = 0 -> 0 < total st ->
  load_prefix (cells (buf st)) (total st) = Some payload ->
  cstring (cells (buf st)) = Some s ->
  respond st w =
    match tx w with
    | [] => Blocked
    | SendAccepts k1 :: more =>
        match more with
        | [] => Blocked
        | SendAccepts k2 :: more' =>
            Ok (tt, mkWorld (rx w) more' (wire w ++ take k1 payload ++ take k2 [LF])
                            (stdio w ++ [LogEchoed s (total st)]) (closed w))
        | SendErr _ :: more' =>
            Ok (tt, mkWorld (rx w) more' (wire w ++ take k1 payload)
                            (stdio w ++ [LogEchoed s (total st)]) (closed w))
        end
    | SendErr e :: more =>
        if e =? EPIPE then
          match more with
          | [] => Blocked
          | SendAccepts k2 :: more' =>
              Ok (tt, mkWorld (rx w) more' (wire w ++ take k2 [LF])
                              (stdio w ++ [LogEchoed s (total st)]) (closed w))
          | SendErr _ :: more' =>
              Ok (tt, mkWorld (rx w) more' (wire w)
                              (stdio w ++ [LogEchoed s (total st)]) (closed w))
          end
        else
          Ok (tt, mkWorld (rx w) more (wire w)
                          (stdio w ++ [Perror "send echo"; LogEchoed s (total st)])
                          (closed w))
    end.
Proof.
  intros Hf Ht Hload Hs. unfold respond. rewrite Hf. simpl.
  destruct (Z.gtb_spec (total st) 0) as [_ | Hle]; [| lia].
  unfold bind, send. rewrite Hload. simpl.
  destruct (tx w) as [| [k1 | e] more]; simpl; [reflexivity | |].
  - destruct more as [| [k2 | e2] more']; simpl; [reflexivity | |];
      rewrite Hs; simpl; unfold put_log, put_wire; simpl.
    + rewrite <- app_assoc. destruct k2; reflexivity.
    + reflexivity.
  - destruct (e =? EPIPE); simpl.
    + destruct more as [| [k2 | e2] more']; simpl; [reflexivity | |];
        rewrite Hs; simpl; unfold put_log, put_wire; simpl.
      * destruct k2; reflexivity.
      * reflexivity.
    + rewrite Hs. simpl. unfold printf, put_log. simpl.
      rewrite <- app_assoc. reflexivity.
Qed.

(** The two phases of the handler for content of 1 to 20 bytes. *)
Lemma echo_core indet pre :
  Forall keeps_reading pre -> (0 < length (content pre) <= 20)%nat ->
  exists st s,
    cstring (content pre ++ [NUL]) = Some s
    /\ total st = Z.of_nat (length (content pre))
    /\ too_long st = 0
    /\ load_prefix (cells (buf st)) (total st) = Some (content pre)
    /\ cstring (cells (buf st)) = Some s
    /\ forall r rest w, stops_reading r -> rx w = pre ++ r :: rest ->
          read_message indet w
          = Ok (st, mkWorld rest (tx w) (wire w) (stdio w ++ recv_diag r) (closed w)).
Proof.
  intros Hpre Hlen.
  destruct (read_message_after indet pre Hpre) as (st0 & Hacc & Hread).
  destruct (terminated_payload _ st0 Hacc) as (Hload & [s Hstr] & Hf & Ht); [lia |].
  exists (terminated st0), s.
  split; [| split; [exact Ht | split; [exact Hf | split; [exact Hload | split;
    [exact Hstr | exact Hread]]]]].
  destruct Hacc as [Ht0 Hc Hs _ _]. rewrite Nat.min_l in Ht0, Hc by lia.
  rewrite (take_ge (content pre)) in Hc by lia.
  simpl in Hstr. rewrite cstring_store in Hstr by lia.
  rewrite Ht0, Nat2Z.id, Hc in Hstr. exact Hstr.
Qed.


Lemma handle_connection_split indet w st w1 :
  read_message indet w = Ok (st, w1) ->
  handle_connection indet w = (respond st ;;; close ;;; ret st)%io w1.
Proof.
  intros H. unfold handle_connection. unfold bind at 1. rewrite H. reflexivity.
Qed.

Lemma handler_tail_oblivious st : oblivious (respond st ;;; close ;;; ret st)%io.
Proof. pose proof (respond_oblivious st). auto 12 with io_obl. Qed.

Lemma alike_wire (r1 r2 : result (locals * world)) :
  alike r1 r2 ->
  match r1 with Ok (_, w) => Ok (wire w) | Blocked => Blocked | Undefined => Undefined end
  = match r2 with Ok (_, w) => Ok (wire w) | Blocked => Blocked | Undefined => Undefined end.
Proof.
  destruct r1 as [[s1 w1] | |]; destruct r2 as [[s2 w2] | |]; simpl;
    try contradiction; try reflexivity.
  intros (_ & _ & Hwire & _). rewrite Hwire. reflexivity.
Qed.

(** ** The loop leaves the connection as it is *)

Lemma same_conn_trans w1 w2 w3 : same_conn w1 w2 -> same_conn w2 w3 -> same_conn w1 w3.
Proof.
  intros (A1 & A2 & A3) (B1 & B2 & B3). repeat split; congruence.
Qed.

Lemma body_same_conn r st w c w' : loop_body r st w = Ok (c, w') -> same_conn w w'.
Proof.
  destruct r as [ch | | e]; simpl.
  - destruct (is_terminator ch); simpl.
    + intros H. injection H as _ <-. apply same_conn_refl.
    + destruct (total st <? MAX_MSG_LEN); simpl.
      * unfold bind, checked. destruct (store (buf st) (total st) ch); simpl;
          [| discriminate].
        intros H. injection H as _ <-. apply same_conn_refl.
      * intros H. injection H as _ <-. apply same_conn_refl.
  - intros H. injection H as _ <-. apply same_conn_refl.
  - destruct (e =? EINTR); simpl; intros H; injection H as _ <-;
      repeat split.
Qed.

Lemma read_loop_same_conn script :
  forall st w st' w', read_loop script st w = Ok (st', w') -> same_conn w w'.
Proof.
  induction script as [| r script IH]; intros st w st' w' H; simpl in H;
    [discriminate H |].
  destruct (loop_body r st (set_rx script w)) as [[[st1 | st1] w1] | |] eqn:E;
    try discriminate H.
  - apply body_same_conn in E. apply IH in H.
    eapply same_conn_trans; [| exact H].
    eapply same_conn_trans; [| exact E]. repeat split.
  - injection H as <- <-. apply body_same_conn in E.
    eapply same_conn_trans; [| exact E]. repeat split.
Qed.

Lemma read_message_same_conn indet w st w' :
  read_message indet w = Ok (st, w') -> same_conn w w'.
Proof.
  unfold read_message, reading, bind. intros H.
  destruct (read_loop (rx w) (fresh_locals indet) w) as [[st0 w0] | |] eqn:E;
    try discriminate H.
  unfold checked in H. destruct (store (buf st0) (total st0) NUL); [| discriminate H].
  injection H as _ <-. exact (read_loop_same_conn _ _ _ _ _ E).
Qed.

(** What the response path adds to the wire and takes from the answers. *)
Lemma respond_bounded_out st w w' :
  bounded st -> respond (terminated st) w = Ok (tt, w') ->
  exists out used,
    wire w' = wire w ++ out /\ (length out <= 21)%nat
    /\ tx w = used ++ tx w' /\ (length used <= 2)%nat.
Proof.
  intros (Ht & _ & Hs). unfold MAX_MSG_LEN in Ht, Hs.
  destruct (Z.eqb_spec (too_long st) 0) as [Hf | Hf].
  - destruct (Z.gtb_spec (total st) 0) as [Hpos | Hzero].
    + destruct (cstring_after_store (cells (buf st)) (Z.to_nat (total st)))
        as [s Hstr]; [lia |].
      rewrite (respond_echo_cases (terminated st) w
                 (take (Z.to_nat (total st)) (cells (buf st))) s);
        [| exact Hf | exact Hpos | | exact Hstr].
      2:{ simpl. rewrite load_prefix_in_bounds by (rewrite length_insert; lia).
          rewrite take_insert_ge by lia. reflexivity. }
      assert (Hk : forall k, (length (take k (take (Z.to_nat (total st))
                                                   (cells (buf st)))) <= 20)%nat).
      { intros k. rewrite !length_take. lia. }
      assert (Hn : forall k, (length (take k [LF]) <= 1)%nat).
      { intros k. rewrite length_take. simpl. lia. }
      destruct (tx w) as [| [k1 | e] [| [k2 | e2] more]] eqn:Etx; simpl;
        try discriminate; try (destruct (e =? EPIPE); try discriminate);
        intros H; injection H as <-; simpl.
      * eexists _, [_; _]. specialize (Hk k1). specialize (Hn k2).
        split; [reflexivity |]. split; [rewrite length_app; lia |].
        split; [reflexivity | simpl; lia].
      * eexists _, [_; _]. specialize (Hk k1).
        split; [reflexivity |]. split; [lia |].
        split; [reflexivity | simpl; lia].
      * exists [], [SendErr e]. rewrite app_nil_r. simpl. auto with lia.
      * eexists _, [_; _]. specialize (Hn k2).
        split; [reflexivity |]. split; [lia |].
        split; [reflexivity | simpl; lia].
      * exists [], [SendErr e]. rewrite app_nil_r. simpl. auto with lia.
      * exists [], [SendErr e; SendErr e2]. rewrite app_nil_r. simpl. auto with lia.
      * exists [], [SendErr e]. rewrite app_nil_r. simpl. auto with lia.
    + rewrite respond_silent by (simpl; lia). intros H. injection H as <-.
      exists [], []. rewrite app_nil_r. simpl. auto with lia.
  - unfold respond. simpl.
    destruct (Z.eqb_spec (too_long st) 0) as [Hz | _]; [contradiction |]. simpl.
    unfold bind, send. simpl.
    destruct (tx w) as [| [k | e] more] eqn:Etx; simpl; [discriminate | |].
    + intros H. injection H as <-. simpl.
      eexists _, [_]. split; [reflexivity |]. split; [| split; [reflexivity | simpl; lia]].
      rewrite length_take. simpl. lia.
    + destruct (e =? EPIPE); simpl; intros H; injection H as <-; simpl;
        exists [], [SendErr e]; rewrite app_nil_r; simpl; auto with lia.
Qed.

Lemma handle_connection_reading indet w1 w2 :
  reading (fresh_locals indet) w1 = reading (fresh_locals indet) w2 ->
  handle_connection indet w1 = handle_connection indet w2.
Proof.
  intros H. unfold handle_connection, read_message, bind. rewrite H. reflexivity.
Qed.

(** ** Properties of the handler beyond the claims *)

(** What [buf] held before the handler ran is never observed: whatever
    the indeterminate initial contents of the buffer, the handler ends with
    the same count and flag and leaves the same world (bytes on the wire,
    diagnostics, streams), or blocks alike. *)
Theorem stale_buffer_never_observed indet1 indet2 w :
  observe (handle_connection indet1 w) = observe (handle_connection indet2 w).
Proof.
  pose proof (read_message_view indet1 indet2 w) as H.
  unfold handle_connection, bind.
  destruct (read_message indet1 w) as [[s1 w1] | |];
    destruct (read_message indet2 w) as [[s2 w2] | |];
    try contradiction; try reflexivity.
  destruct H as (a & b & -> & -> & Hv & Ha & Hb & <-).
  rewrite (respond_view a b w1 Hv Ha Hb).
  destruct (respond (terminated b) w1) as [[[] w2] | |]; simpl;
    [| reflexivity | reflexivity].
  destruct Hv as (Ht & Hf & _). rewrite Ht, Hf. reflexivity.
Qed.

(** Reads interrupted by a signal leave no trace: a stream of content
    bytes with EINTR failures in between is handled exactly as the same
    bytes without them, whatever follows. *)
Theorem interrupted_reads_invisible indet pre tail answers :
  Forall keeps_reading pre ->
  handle_connection indet (connect (pre ++ tail) answers)
  = handle_connection indet (connect (sends (content pre) ++ tail) answers).
Proof.
  intros Hpre. apply handle_connection_reading. rewrite !reading_connect.
  apply read_loop_skip_interrupts. exact Hpre.
Qed.

Lemma interrupted_reads_invisible_witness :
  handle_connection (fun _ => x2a)
    (connect ([RecvErr EINTR; RecvByte x68; RecvErr EINTR; RecvByte x69]
              ++ [RecvByte LF])
             [SendAccepts 2; SendAccepts 1])
  = handle_connection (fun _ => x2a)
    (connect (sends (content [RecvErr EINTR; RecvByte x68; RecvErr EINTR; RecvByte x69])
              ++ [RecvByte LF])
             [SendAccepts 2; SendAccepts 1]).
Proof.
  refine (interrupted_reads_invisible (fun _ => x2a)
            [RecvErr EINTR; RecvByte x68; RecvErr EINTR; RecvByte x69]
            [RecvByte LF] [SendAccepts 2; SendAccepts 1] _).
  repeat constructor.
Defined.

(** The response is set by the content alone: which event ends the loop
    ('\n', '\r', end of stream, or a failed read) and what the peer sends
    after it change neither the locals, nor the bytes written, nor the
    number of send calls. *)
Theorem response_set_by_content indet pre r1 r2 rest1 rest2 answers :
  Forall keeps_reading pre -> stops_reading r1 -> stops_reading r2 ->
  alike (handle_connection indet (connect (pre ++ r1 :: rest1) answers))
        (handle_connection indet (connect (pre ++ r2 :: rest2) answers))
  /\ response indet (connect (pre ++ r1 :: rest1) answers)
     = response indet (connect (pre ++ r2 :: rest2) answers).
Proof.
  intros Hpre Hr1 Hr2.
  destruct (read_message_after indet pre Hpre) as (st & _ & Hread).
  assert (H : alike (handle_connection indet (connect (pre ++ r1 :: rest1) answers))
                    (handle_connection indet (connect (pre ++ r2 :: rest2) answers))).
  { rewrite (handle_connection_split indet _ _ _ (Hread r1 rest1 (connect (pre ++ r1 :: rest1) answers) Hr1 eq_refl)).
    rewrite (handle_connection_split indet _ _ _ (Hread r2 rest2 (connect (pre ++ r2 :: rest2) answers) Hr2 eq_refl)).
    apply handler_tail_oblivious. repeat split. }
  split; [exact H |]. unfold response. apply alike_wire. exact H.
Qed.

Lemma response_set_by_content_witness :
  response (fun _ => x2a)
    (connect ([RecvByte x68; RecvByte x69] ++ RecvErr ENOMEM :: [])
             [SendAccepts 2; SendAccepts 1])
  = response (fun _ => x2a)
    (connect ([RecvByte x68; RecvByte x69] ++ RecvByte CR :: [RecvByte LF; RecvByte x21])
             [SendAccepts 2; SendAccepts 1]).
Proof.
  refine (proj2 (response_set_by_content (fun _ => x2a) [RecvByte x68; RecvByte x69]
                   (RecvErr ENOMEM) (RecvByte CR) [] [RecvByte LF; RecvByte x21]
                   [SendAccepts 2; SendAccepts 1] _ _ _)).
  - repeat constructor.
  - discriminate.
  - reflexivity.
Defined.

(** A short send is not retried: when the kernel takes only the first k1
    bytes of the echo, the handler still goes on to send the '\n', so the
    peer gets the first k1 content bytes followed by the newline.  Two send
    calls are made and the connection is closed. *)
Theorem short_send_not_retried indet pre r rest k1 k2 more :
  Forall keeps_reading pre -> stops_reading r ->
  (0 < length (content pre) <= 20)%nat ->
  exists st w',
    handle_connection indet (connect (pre ++ r :: rest)
                                     (SendAccepts k1 :: SendAccepts k2 :: more))
    = Ok (st, w')
    /\ wire w' = take k1 (content pre) ++ take k2 [LF]
    /\ tx w' = more /\ closed w' = true.
Proof.
  intros Hpre Hr Hlen.
  destruct (echo_core indet pre Hpre Hlen)
    as (st & s & _ & Ht & Hf & Hload & Hstr & Hread).
  eexists _, _. split.
  - rewrite (handle_connection_split indet _ _ _ (Hread r rest (connect (pre ++ r :: rest) (SendAccepts k1 :: SendAccepts k2 :: more)) Hr eq_refl)).
    unfold bind.
    rewrite (respond_echo_cases st _ (content pre) s Hf ltac:(lia) Hload Hstr).
    simpl. reflexivity.
  - simpl. auto.
Qed.

Lemma short_send_not_retried_witness :
  exists st w',
    handle_connection (fun _ => x2a)
      (connect (sends [x68; x69; x21] ++ RecvByte LF :: [])
               [SendAccepts 1; SendAccepts 1])
    = Ok (st, w')
    /\ wire w' = take 1 (content (sends [x68; x69; x21])) ++ take 1 [LF]
    /\ tx w' = [] /\ closed w' = true.
Proof.
  refine (short_send_not_retried (fun _ => x2a) (sends [x68; x69; x21])
            (RecvByte LF) [] 1 1 [] _ _ _).
  - repeat constructor.
  - reflexivity.
  - simpl. lia.
Defined.

(** When the send of the echo fails: with an errno other than EPIPE the
    newline is not sent, nothing reaches the wire and "send echo" is
    printed; with EPIPE nothing is printed about it and the send of the
    newline is still made, so a second answer is taken. *)
Theorem echo_send_failure indet pre r rest :
  Forall keeps_reading pre -> stops_reading r ->
  (0 < length (content pre) <= 20)%nat ->
  exists st s,
    (forall e more, e <> EPIPE ->
       handle_connection indet (connect (pre ++ r :: rest) (SendErr e :: more))
       = Ok (st, mkWorld rest more []
                   (recv_diag r ++ [Perror "send echo";
                                    LogEchoed s (Z.of_nat (length (content pre)))])
                   true))
    /\ (forall a more,
          handle_connection indet
            (connect (pre ++ r :: rest) (SendErr EPIPE :: a :: more))
          = Ok (st, mkWorld rest more
                      (match a with SendAccepts k => take k [LF] | SendErr _ => [] end)
                      (recv_diag r ++ [LogEchoed s (Z.of_nat (length (content pre)))])
                      true)).
Proof.
  intros Hpre Hr Hlen.
  destruct (echo_core indet pre Hpre Hlen)
    as (st & s & _ & Ht & Hf & Hload & Hstr & Hread).
  exists st, s. split.
  - intros e more He.
    rewrite (handle_connection_split indet _ _ _ (Hread r rest (connect (pre ++ r :: rest) (SendErr e :: more)) Hr eq_refl)).
    unfold bind.
    rewrite (respond_echo_cases st _ (content pre) s Hf ltac:(lia) Hload Hstr).
    simpl. destruct (Z.eqb_spec e EPIPE) as [-> | _]; [contradiction |].
    simpl. rewrite Ht. reflexivity.
  - intros a more.
    rewrite (handle_connection_split indet _ _ _ (Hread r rest (connect (pre ++ r :: rest) (SendErr EPIPE :: a :: more)) Hr eq_refl)).
    unfold bind.
    rewrite (respond_echo_cases st _ (content pre) s Hf ltac:(lia) Hload Hstr).
    simpl. destruct a as [k | e2]; simpl; rewrite Ht; reflexivity.
Qed.

Lemma echo_send_failure_witness :
  exists st s,
    handle_connection (fun _ => x2a)
      (connect (sends [x68; x69] ++ RecvByte LF :: []) (SendErr EPIPE :: SendErr EPIPE :: []))
    = Ok (st, mkWorld [] [] []
                (recv_diag (RecvByte LF)
                 ++ [LogEchoed s (Z.of_nat (length (content (sends [x68; x69]))))])
                true).
Proof.
  destruct (echo_send_failure (fun _ => x2a) (sends [x68; x69]) (RecvByte LF) [])
    as (st & s & _ & H).
  - repeat constructor.
  - reflexivity.
  - simpl. lia.
  - exists st, s. exact (H (SendErr EPIPE) []).
Defined.

(** Whatever the peer sends and however the kernel answers, a handler
    that returns has added at most 21 bytes to the wire (20 content bytes
    and the newline at most) and has called send at most twice. *)
Theorem response_bounded indet w st w' :
  handle_connection indet w = Ok (st, w') ->
  exists out used,
    wire w' = wire w ++ out /\ (length out <= 21)%nat
    /\ tx w = used ++ tx w' /\ (length used <= 2)%nat.
Proof.
  intros H. unfold handle_connection, bind in H.
  pose proof (read_message_bounded indet w) as Hb.
  destruct (read_message indet w) as [[s1 w1] | |] eqn:E; try discriminate H.
  destruct Hb as (st0 & Hb & ->).
  apply read_message_same_conn in E. destruct E as (Etx & Ewire & _).
  destruct (respond (terminated st0) w1) as [[[] w2] | |] eqn:R; try discriminate H.
  simpl in H. injection H as _ <-.
  destruct (respond_bounded_out st0 w1 w2 Hb R) as (out & used & H1 & H2 & H3 & H4).
  exists out, used. simpl. rewrite Etx, Ewire. auto.
Qed.

Lemma response_bounded_witness :
  exists out used,
    wire (mkWorld [] [SendAccepts 5] (replicate 20 x61 ++ [LF])
                  [LogEchoed (replicate 20 x61) 20] true)
    = wire (connect (sends (replicate 20 x61) ++ [RecvEof])
                    [SendAccepts 20; SendAccepts 1; SendAccepts 5]) ++ out
    /\ (length out <= 21)%nat
    /\ tx (connect (sends (replicate 20 x61) ++ [RecvEof])
                   [SendAccepts 20; SendAccepts 1; SendAccepts 5])
       = used ++ tx (mkWorld [] [SendAccepts 5] (replicate 20 x61 ++ [LF])
                             [LogEchoed (replicate 20 x61) 20] true)
    /\ (length used <= 2)%nat.
Proof.
  refine (response_bounded (fun _ => x2a)
            (connect (sends (replicate 20 x61) ++ [RecvEof])
                     [SendAccepts 20; SendAccepts 1; SendAccepts 5])
            (mkLocals (mkArray (replicate 20 x61 ++ [NUL]) (seqZ 0 21)) 20 0)
            (mkWorld [] [SendAccepts 5] (replicate 20 x61 ++ [LF])
                     [LogEchoed (replicate 20 x61) 20] true)
            _).
  vm_compute. reflexivity.
Defined.



(** * The accept loop and start-up *)

Lemma handle_connection_defined indet w : handle_connection indet w <> Undefined.
Proof.
  pose proof (read_message_bounded indet w) as Hm.
  unfold handle_connection, bind.
  destruct (read_message indet w) as [[st w'] | |];
    [| discriminate | contradiction].
  destruct Hm as (st0 & Hb & ->).
  pose proof (respond_defined st0 w' Hb) as Hdef.
  destruct (respond (terminated st0) w') as [[[] w1] | |];
    [discriminate | discriminate | congruence].
Qed.

Lemma handle_connection_starved indet script answers :
  Forall keeps_reading script ->
  handle_connection indet (connect script answers) = Blocked.
Proof.
  intros Hs. unfold handle_connection, bind.
  rewrite (read_message_starved indet script (connect script answers) Hs eq_refl).
  reflexivity.
Qed.


(** Failures of accept do not touch the service: with or without them in
    between, the same connections are served with the same outcome, and the
    server ends up waiting in the same place.  A failure with EINTR leaves
    no trace at all, not even a printed line. *)
Theorem accept_failures_skipped indet evs :
  forall n,
    served (accept_loop indet n evs)
    = served (accept_loop indet n (List.filter is_conn evs))
    /\ waits (accept_loop indet n evs)
       = waits (accept_loop indet n (List.filter is_conn evs))
    /\ accept_loop indet n evs
       = accept_loop indet n
           (List.filter (fun ev => negb (is_interrupted ev)) evs).
Proof.
  induction evs as [| [p | e] evs IH]; intros n; simpl.
  - repeat split.
  - destruct (handle_connection (indet n)
                (connect (peer_script p) (peer_answers p))) as [[st w'] | |];
      simpl; [| repeat split | repeat split].
    destruct (IH (S n)) as (H1 & H2 & H3).
    rewrite <- H1, <- H2, <- H3. repeat split.
  - destruct (IH n) as (H1 & H2 & H3).
    destruct (e =? EINTR) eqn:E; simpl.
    + repeat split; assumption.
    + rewrite E, <- H3. repeat split; assumption.
Qed.

(** One silent client stops the service: when a connection delivers bytes
    but neither a terminator nor the end of the stream, the server stays in
    its handler and no client accepted after it is ever served. *)
Theorem silent_peer_starves_later_clients indet evs1 p evs2 :
  Forall keeps_reading (peer_script p) ->
  forall n,
    served (accept_loop indet n (evs1 ++ AcceptConn p :: evs2))
    = served (accept_loop indet n evs1)
    /\ waits (accept_loop indet n (evs1 ++ AcceptConn p :: evs2)) = InHandler.
Proof.
  intros Hp. induction evs1 as [| [q | e] evs1 IH]; intros n; simpl.
  - rewrite (handle_connection_starved _ _ _ Hp). split; reflexivity.
  - pose proof (handle_connection_defined (indet n)
                  (connect (peer_script q) (peer_answers q))) as Hd.
    destruct (handle_connection (indet n)
                (connect (peer_script q) (peer_answers q))) as [[st w'] | |];
      simpl; [| split; reflexivity | congruence].
    destruct (IH (S n)) as [-> ->]. split; reflexivity.
  - destruct (e =? EINTR); simpl; apply IH.
Qed.

Lemma silent_peer_starves_later_clients_witness :
  served (accept_loop (fun _ _ => x2a) 0
            ([AcceptErr ENOMEM]
             ++ AcceptConn (mkPeer 1 1024 (sends [x68; x69]) [])
             :: [AcceptConn (mkPeer 2 1025 (sends [x68] ++ [RecvByte LF])
                                    [SendAccepts 1; SendAccepts 1])]))
  = served (accept_loop (fun _ _ => x2a) 0 [AcceptErr ENOMEM])
  /\ waits (accept_loop (fun _ _ => x2a) 0
              ([AcceptErr ENOMEM]
               ++ AcceptConn (mkPeer 1 1024 (sends [x68; x69]) [])
               :: [AcceptConn (mkPeer 2 1025 (sends [x68] ++ [RecvByte LF])
                                      [SendAccepts 1; SendAccepts 1])]))
     = InHandler.
Proof.
  refine (silent_peer_starves_later_clients (fun _ _ => x2a) [AcceptErr ENOMEM]
            (mkPeer 1 1024 (sends [x68; x69]) [])
            [AcceptConn (mkPeer 2 1025 (sends [x68] ++ [RecvByte LF])
                                [SendAccepts 1; SendAccepts 1])]
            _ 0%nat).
  repeat constructor.
Defined.


(** No sequence of clients makes the server leave an object: the accept
    loop never ends in a faulting access, whatever is received. *)
Theorem server_never_faults indet evs :
  forall n, waits (accept_loop indet n evs) <> Faulted.
Proof.
  induction evs as [| [p | e] evs IH]; intros n; simpl.
  - discriminate.
  - pose proof (handle_connection_defined (indet n)
                  (connect (peer_script p) (peer_answers p))) as Hd.
    destruct (handle_connection (indet n) _) as [[st w'] | |]; simpl;
      [apply IH | discriminate | congruence].
  - destruct (e =? EINTR); simpl; apply IH.
Qed.

(** The server starts listening exactly when every set-up call succeeds;
    otherwise the process exits at once with EXIT_FAILURE after a single
    diagnostic, having accepted no connection. *)
Theorem main_exits_iff_setup_fails atoi indet argv env evs :
  match main atoi indet argv env evs with
  | Exits status out =>
      ~ setup_ok env /\ status = EXIT_FAILURE /\ exists msg, out = [MainPerror msg]
  | Listens ip _ out s =>
      setup_ok env /\ s = accept_loop indet 0 evs
      /\ exists port, out = [MainListening ip port MAX_MSG_LEN]
  end.
Proof.
  unfold main, setup_ok, die.
  destruct (Z.ltb_spec (socket_ret env) 0);
    [split; [lia | split; [reflexivity | eexists; reflexivity]] |].
  destruct (Z.ltb_spec (setsockopt_ret env) 0);
    [split; [lia | split; [reflexivity | eexists; reflexivity]] |].
  destruct (Z.eqb_spec (inet_pton_ret env) 1); simpl;
    [| split; [tauto | split; [reflexivity | eexists; reflexivity]]].
  destruct (Z.ltb_spec (bind_ret env) 0);
    [split; [lia | split; [reflexivity | eexists; reflexivity]] |].
  destruct (Z.ltb_spec (listen_ret env) 0);
    [split; [lia | split; [reflexivity | eexists; reflexivity]] |].
  split; [auto | split; [reflexivity | eexists; reflexivity]].
Qed.


